(** * The ao renderer front end: interval min/max and the Frame scheduler

    Shallow embedding of
    - [lib/inc/ao/core/interval.hpp]  ([Interval], [_min], [_max]);
    - [lib/src/gl/frame.cpp]          ([Frame::render], [Frame::startRender],
                                       [Frame::poll], [Frame::draw]).

    The scalars of an [Interval] are kept abstract: the development only
    uses the comparison [operator<], which on the NaN-free values an
    interval may hold is a strict total order.  The [double] arithmetic of
    [Frame::startRender] is modelled value by value, with its rounding. *)

From Stdlib Require Import ZArith QArith Qreduction Bool List Lia.
From Stdlib Require Qcanon.
From Equations Require Import Equations.
Import ListNotations.

Local Open Scope Z_scope.

(* ===================================================================== *)
(** * Ordered scalars, [std::min] and [std::max]                          *)
(* ===================================================================== *)

(** [operator<] on the scalar type.  The three laws say that it is a
    strict total order, values being identified up to [==]. *)
Class Ordered (T : Type) : Type := {
  ltb : T -> T -> bool;
  ltb_irrefl : forall x, ltb x x = false;
  ltb_trans : forall x y z, ltb x y = true -> ltb y z = true -> ltb x z = true;
  ltb_connex : forall x y, ltb x y = false -> ltb y x = false -> x = y
}.

(** [std::min(a, b)] is [(b < a) ? b : a]. *)
Definition std_min {T} `{Ordered T} (a b : T) : T :=
  if ltb b a then b else a.

(** [std::max(a, b)] is [(a < b) ? b : a]. *)
Definition std_max {T} `{Ordered T} (a b : T) : T :=
  if ltb a b then b else a.

(** [x <= y], read as [!(y < x)]. *)
Definition leb {T} `{Ordered T} (x y : T) : bool := negb (ltb y x).

(** The integers, used for the literal extents of a [Region] and as a
    concrete scalar type in examples. *)
#[export] Program Instance Z_Ordered : Ordered Z := {| ltb := Z.ltb |}.
Next Obligation. apply Z.ltb_irrefl. Qed.
Next Obligation.
  rewrite Z.ltb_lt in *. lia.
Qed.
Next Obligation.
  rewrite Z.ltb_ge in *. lia.
Qed.

(** Scalars with the two infinities a [double] has. *)
Inductive ext : Type :=
| NegInf : ext
| Fin : Z -> ext
| PosInf : ext.

Definition ext_ltb (x y : ext) : bool :=
  match x, y with
  | NegInf, NegInf => false
  | NegInf, _ => true
  | Fin _, NegInf => false
  | Fin a, Fin b => a <? b
  | Fin _, PosInf => true
  | PosInf, _ => false
  end.

#[export] Program Instance ext_Ordered : Ordered ext := {| ltb := ext_ltb |}.
Next Obligation.
  destruct x; simpl; auto using Z.ltb_irrefl.
Qed.
Next Obligation.
  destruct x, y, z; simpl in *; try congruence.
  rewrite Z.ltb_lt in *. lia.
Qed.
Next Obligation.
  destruct x, y; simpl in *; try congruence.
  rewrite Z.ltb_ge in *. f_equal. lia.
Qed.

(* ===================================================================== *)
(** * [ao/core/interval.hpp]                                              *)
(* ===================================================================== *)

(** [typedef boost::numeric::interval<double> Interval]: a pair of
    bounds, read with [lower()] and [upper()]. *)
Record Interval (T : Type) : Type := mkInterval { lower : T; upper : T }.
Arguments mkInterval {T} _ _.
Arguments lower {T} _.
Arguments upper {T} _.

Section IntervalOps.
Context {T : Type} `{Ordered T}.

(** Modelled from the spec: [boost::numeric::min], which the header
    calls and whose code is not among the sources.  The spec gives it as
    [min(a,b) = [min(lo_a,lo_b), min(hi_a,hi_b)]]. *)
Definition boost_min (x y : Interval T) : Interval T :=
  mkInterval (std_min (lower x) (lower y)) (std_min (upper x) (upper y)).

(** Modelled from the spec: [boost::numeric::max], symmetric to
    [boost_min]: [max(a,b) = [max(lo_a,lo_b), max(hi_a,hi_b)]]. *)
Definition boost_max (x y : Interval T) : Interval T :=
  mkInterval (std_max (lower x) (lower y)) (std_max (upper x) (upper y)).

(** [inline Interval _min(const Interval& a, const Interval& b)] *)
Definition _min (a b : Interval T) : Interval T := boost_min a b.

(** [inline Interval _max(const Interval& a, const Interval& b)] *)
Definition _max (a b : Interval T) : Interval T := boost_max a b.

(** [x] lies in the range [a] stands for. *)
Definition contains (a : Interval T) (x : T) : Prop :=
  leb (lower a) x = true /\ leb x (upper a) = true.

(** [a] is not empty: [lower() <= upper()]. *)
Definition nonempty (a : Interval T) : Prop :=
  leb (lower a) (upper a) = true.

(** [a] lies within [b]. *)
Definition subset (a b : Interval T) : Prop :=
  leb (lower b) (lower a) = true /\ leb (upper a) (upper b) = true.

End IntervalOps.

(* ===================================================================== *)
(** * [double] arithmetic                                                 *)
(* ===================================================================== *)

(** The integer nearest to [num / den], ties going to the even one
    ([num >= 0], [den > 0]). *)
Definition nearest_even (num den : Z) : Z :=
  let m := num / den in
  let r := num mod den in
  match 2 * r ?= den with
  | Lt => m
  | Gt => m + 1
  | Eq => if Z.even m then m else m + 1
  end.

(** [floor (log2 (p / q))] for [p, q > 0]. *)
Definition binade (p q : Z) : Z :=
  let t := Z.log2 p - Z.log2 q in
  if (if 0 <=? t then q * 2 ^ t <=? p else q <=? p * 2 ^ (- t))
  then t else t - 1.

(** [m * 2 ^ e] as a reduced fraction. *)
Definition scaled (m e : Z) : Q :=
  Qred (if 0 <=? e then inject_Z (m * 2 ^ e)
        else Qmake m (Z.to_pos (2 ^ (- e)))).

(** [p / q] ([p, q > 0]) rounded to a significand of 53 bits, to nearest
    and ties to even, as binary64 arithmetic rounds. *)
Definition round53 (p q : Z) : Q :=
  let e := binade p q - 52 in
  let m := if 0 <=? e then nearest_even p (q * 2 ^ e)
           else nearest_even (p * 2 ^ (- e)) q in
  scaled m e.

Definition round_double (x : Q) : Q :=
  match Qnum x with
  | Z0 => 0%Q
  | Zpos p => round53 (Zpos p) (Zpos (Qden x))
  | Zneg p => Qopp (round53 (Zpos p) (Zpos (Qden x)))
  end.

(** A [double]: a finite value, given by the rational it stands for (in
    lowest terms), an infinity with its sign ([true] for the negative
    one), or a NaN.  The two zeros are one value here, and the exponent
    range is not modelled: the operands below are machine integers and
    their quotients, far from overflow and underflow. *)
Inductive double : Type :=
| Finite : Q -> double
| Infinity : bool -> double
| NaN : double.

(** Conversion of an integer ([size_t], [int]) to [double]. *)
Definition of_integer (z : Z) : double := Finite (round_double (inject_Z z)).

(** [operator*] on [double]. *)
Definition fmul (a b : double) : double :=
  match a, b with
  | Finite x, Finite y => Finite (round_double (x * y))
  | Finite x, Infinity s =>
      if Qnum x =? 0 then NaN else Infinity (xorb (Qnum x <? 0) s)
  | Infinity s, Finite y =>
      if Qnum y =? 0 then NaN else Infinity (xorb s (Qnum y <? 0))
  | Infinity s, Infinity s' => Infinity (xorb s s')
  | NaN, _ => NaN
  | _, NaN => NaN
  end.

(** [operator/] on [double]. *)
Definition fdiv (a b : double) : double :=
  match a, b with
  | Finite x, Finite y =>
      if Qnum y =? 0
      then if Qnum x =? 0 then NaN else Infinity (Qnum x <? 0)
      else Finite (round_double (x / y))
  | Finite _, Infinity _ => Finite 0
  | Infinity s, Finite y => Infinity (xorb s (Qnum y <? 0))
  | Infinity _, Infinity _ => NaN
  | NaN, _ => NaN
  | _, NaN => NaN
  end.

(** [operator<=] on [double]. *)
Definition double_leb (a b : double) : bool :=
  match a, b with
  | Finite x, Finite y => Qle_bool x y
  | Finite _, Infinity s => negb s
  | Infinity s, Finite _ => s
  | Infinity s, Infinity s' => s || negb s'
  | NaN, _ => false
  | _, NaN => false
  end.

(** The [double] whose value is exactly the fraction [n / d] ([d > 0]). *)
Definition quotient (n d : Z) : double :=
  Finite (Qred (Qmake n (Z.to_pos d))).

(* ===================================================================== *)
(** * Collaborators of [Frame]                                            *)
(* ===================================================================== *)

(** Modelled from the spec: [Region], declared in [ao/core/region.hpp]
    which is not among the sources.  The spec describes it as an immutable
    value constructed from three axis ranges plus three voxel counts; the
    record holds the six constructor arguments as [startRender] passes
    them, the counts being the [double] values of [ni/div], [nj/div] and
    [nk/div]. *)
Record Region : Type := mkRegion {
  X : Interval Z; Y : Interval Z; Z_ : Interval Z;
  vi : double; vj : double; vk : double
}.

(** What [frame.cpp] takes from glm, Eigen and the [Heightmap] namespace.
    The [Tree] behind [Frame::tree] is a fixed expression plus the matrix
    installed by [setMatrix]; [Render] and [Shade] are therefore functions
    of that matrix and of the region. *)
Class Extern : Type := {
  mat4 : Type;
  inverse : mat4 -> mat4;                      (* glm::inverse *)
  mul : mat4 -> mat4 -> mat4;                  (* operator* on glm::mat4 *)
  ArrayXXd : Type;
  ArrayXXf : Type;
  Image : Type;
  Render : mat4 -> Region -> ArrayXXd;         (* Heightmap::Render(tree, r) *)
  Shade : mat4 -> Region -> ArrayXXd -> Image; (* Heightmap::Shade(tree, r, depth) *)
  cast_transpose : ArrayXXd -> ArrayXXf;       (* .cast<float>().transpose() *)
  transpose : Image -> Image                   (* .transpose() *)
}.

(** A small instance to run the scheduler on: a matrix is a translation
    along one axis (an integer offset), a depth buffer or an image records
    the matrix and the region it was computed from. *)
Definition toy : Extern := {|
  mat4 := Z;
  inverse := Z.opp;
  mul := Z.add;
  ArrayXXd := Z * Region;
  ArrayXXf := Z * Region;
  Image := Z * Region;
  Render := fun m r => (m, r);
  Shade := fun m r _ => (m, r);
  cast_transpose := fun d => d;
  transpose := fun i => i
|}.

(* ===================================================================== *)
(** * [Frame]: tasks, the future and the scheduler state                  *)
(* ===================================================================== *)

Section Scheduler.
Context {E : Extern}.

(** Modelled from the spec: [struct Task], declared in a version of
    [ao/gl/frame.hpp] that is not among the sources (the header present
    predates the scheduler).  A task is
    {transform, requested resolution (ni,nj,nk), level} with level >= 1
    for a real task; a slot that is not set is a task that is not
    [valid()], which is level 0 here, and [reset()] clears a slot by
    setting the level to 0. *)
Record Task : Type := mkTask {
  mat : mat4; ni : Z; nj : Z; nk : Z; level : Z
}.

Definition valid (t : Task) : bool := 0 <? level t.

(** Assignment to the field [level]. *)
Definition with_level (t : Task) (l : Z) : Task :=
  mkTask (mat t) (ni t) (nj t) (nk t) l.

Definition reset (t : Task) : Task := with_level t 0.

(** [std::future<std::pair<Eigen::ArrayXXd, Image>>]: no shared state,
    or a worker started by [std::async] that is still running on its
    region, or a result that is ready to be taken by [get()]. *)
Inductive Future : Type :=
| NoState : Future
| Running : Region -> Future
| Ready : ArrayXXd * Image -> Future.

(** [future.valid()] *)
Definition future_valid (f : Future) : bool :=
  match f with
  | NoState => false
  | _ => true
  end.

(** The members of [Frame] the scheduler reads and writes.  [tree] is the
    matrix currently installed in [*tree]; [depth] and [norm] are the
    contents of the two textures ([None] before the first upload). *)
Record Frame : Type := mkFrame {
  tree : mat4;
  depth : option ArrayXXf;
  norm : option Image;
  current : Task;
  pending : Task;
  next : Task;
  future : Future
}.

Definition set_next (s : Frame) (t : Task) : Frame :=
  mkFrame (tree s) (depth s) (norm s) (current s) (pending s) t (future s).

(** The state [Frame::Frame] leaves: three default-constructed tasks,
    a default-constructed future, two textures without contents. *)
Definition initial (s : Frame) : Prop :=
  valid (current s) = false /\ valid (pending s) = false /\
  valid (next s) = false /\ future s = NoState /\
  depth s = None /\ norm s = None.

(** ** [Frame::startRender] *)

(** [Region({-1, 1}, {-1, 1}, {-1, 1}, ni/div, nj/div, nk/div)] with
    [double div = 2.0 * level]: the level is converted to [double] for the
    product, each [size_t] count for its quotient. *)
Definition region_of (t : Task) : Region :=
  let div := fmul (Finite 2) (of_integer (level t)) in
  mkRegion (mkInterval (-1) 1) (mkInterval (-1) 1) (mkInterval (-1) 1)
           (fdiv (of_integer (ni t)) div) (fdiv (of_integer (nj t)) div)
           (fdiv (of_integer (nk t)) div).

(** The first branch: build the region, [tree->setMatrix], move [next]
    into [pending], start the worker. *)
Definition dispatch (s : Frame) : Frame :=
  let r := region_of (next s) in
  mkFrame (inverse (mat (next s))) (depth s) (norm s)
          (current s) (next s) (reset (next s)) (Running r).

(** The second branch up to the recursive call:
    [next = current; next.level /= 2;]. *)
Definition refine (s : Frame) : Frame :=
  set_next s (with_level (current s) (level (current s) / 2)).

(** Both [assert]s of [startRender]. *)
Definition asserts_hold (s : Frame) : bool :=
  negb (future_valid (future s)) && negb (valid (pending s)).

Definition inspect {A} (a : A) : {b : A | a = b} := exist _ a eq_refl.

(** The recursion is the source's: the callee finds [next] valid.
    A failed [assert] is [None]. *)
Equations? startRender (s : Frame) : option Frame
  by wf (if valid (next s) then 0%nat else 1%nat) lt :=
  startRender s with asserts_hold s := {
    | false := None
    | true with inspect (valid (next s)) := {
        | exist _ true _ := Some (dispatch s)
        | exist _ false Hn with inspect (1 <? level (current s)) := {
            | exist _ true Hc := startRender (refine s)
            | exist _ false _ := Some s } } }.
Proof.
  rewrite Hn. unfold refine, valid; simpl.
  apply Z.ltb_lt in Hc.
  assert (Hl : (0 <? level (current s) / 2) = true).
  { apply Z.ltb_lt. apply Z.div_str_pos. lia. }
  rewrite Hl. auto.
Qed.

(** ** [Frame::render] *)
Definition render (s : Frame) (m : mat4) (ni nj nk : Z) : option Frame :=
  let s1 := set_next s (mkTask m ni nj nk 8) in
  if negb (future_valid (future s1)) then startRender s1 else Some s1.

(** ** [Frame::poll] *)

(** The ready branch up to the call of [startRender]: [future.get()]
    takes the result and leaves the future without shared state, the two
    arrays are uploaded, then [current = pending; pending.reset();]. *)
Definition promoted (s : Frame) (out : ArrayXXd * Image) : Frame :=
  let d := cast_transpose (fst out) in
  let sh := transpose (snd out) in
  mkFrame (tree s) (Some d) (Some sh)
          (pending s) (reset (pending s)) (next s) NoState.

(** [wait_for(0)] reports [ready] exactly when the worker has returned.
    The result is the returned [bool] together with the new state. *)
Definition poll (s : Frame) : option (bool * Frame) :=
  match future s with
  | NoState => Some (false, s)
  | Running _ => Some (false, s)
  | Ready out =>
      match startRender (promoted s out) with
      | Some s2 => Some (true, s2)
      | None => None
      end
  end.

(** The lambda given to [std::async] runs to its [return]: it reads the
    tree as it is and the region it captured. *)
Definition worker_return (s : Frame) : Frame :=
  match future s with
  | Running r =>
      let d := Render (tree s) r in
      mkFrame (tree s) (depth s) (norm s) (current s) (pending s) (next s)
              (Ready (d, Shade (tree s) r d))
  | _ => s
  end.

(** ** [Frame::draw]

    The value uploaded for the uniform [m], or [None] when the method
    returns early. *)
Definition draw (s : Frame) (m : mat4) : option mat4 :=
  if valid (current s) then Some (mul m (inverse (mat (current s))))
  else None.

(** ** Executions *)

Inductive step : Frame -> Frame -> Prop :=
| step_render s m a b c s' : render s m a b c = Some s' -> step s s'
| step_poll s b s' : poll s = Some (b, s') -> step s s'
| step_worker s r : future s = Running r -> step s (worker_return s).

Inductive reachable : Frame -> Prop :=
| reach_init s : initial s -> reachable s
| reach_step s s' : reachable s -> step s s' -> reachable s'.

(** What holds between two calls of the public methods: the future has a
    shared state exactly when a task is pending, and when it has none
    nothing is queued and nothing is left to refine. *)
Definition invariant (s : Frame) : Prop :=
  future_valid (future s) = valid (pending s) /\
  (future s = NoState ->
   valid (next s) = false /\ (1 <? level (current s)) = false).

(** No worker, nothing pending, nothing queued. *)
Definition idle (s : Frame) : Prop :=
  future s = NoState /\ valid (pending s) = false /\ valid (next s) = false.

(** The arguments of one call of [Frame::render]. *)
Record Request : Type := mkRequest {
  rq_mat : mat4; rq_ni : Z; rq_nj : Z; rq_nk : Z
}.

(** [Task(m, ni, nj, nk, 8)] *)
Definition coarsest (q : Request) : Task :=
  mkTask (rq_mat q) (rq_ni q) (rq_nj q) (rq_nk q) 8.

(** A run of calls of [render], in order. *)
Fixpoint renders (qs : list Request) (s : Frame) : option Frame :=
  match qs with
  | [] => Some s
  | q :: qs' =>
      match render s (rq_mat q) (rq_ni q) (rq_nj q) (rq_nk q) with
      | Some s1 => renders qs' s1
      | None => None
      end
  end.

(** What the worker in flight hands to [future.get()] once it has
    returned. *)
Definition outcome (s : Frame) : option (ArrayXXd * Image) :=
  match future (worker_return s) with
  | Ready out => Some out
  | _ => None
  end.

(** [n] rounds of: the worker returns, [poll] is called and returns
    [true].  The result lists [current] and [pending] as each of these
    polls leaves them. *)
Fixpoint successful_polls (n : nat) (s : Frame)
  : option (list (Task * Task) * Frame) :=
  match n with
  | O => Some ([], s)
  | S n' =>
      match poll (worker_return s) with
      | Some (true, s1) =>
          match successful_polls n' s1 with
          | Some (l, s2) => Some ((current s1, pending s1) :: l, s2)
          | None => None
          end
      | _ => None
      end
  end.

(** What the lambda of [startRender] computes for task [t]: [Render] then
    [Shade] on the region of [t], the tree holding the inverse of the
    matrix of [t]. *)
Definition rendering (t : Task) : ArrayXXd * Image :=
  let m := inverse (mat t) in
  let r := region_of t in
  let d := Render m r in
  (d, Shade m r d).

(** The future belongs to the pending task. *)
Definition worker_coherent (s : Frame) : Prop :=
  match future s with
  | NoState => True
  | Running r => r = region_of (pending s) /\
                 tree s = inverse (mat (pending s))
  | Ready out => out = rendering (pending s)
  end.

(** The two textures belong to [current]. *)
Definition display_coherent (s : Frame) : Prop :=
  if valid (current s)
  then depth s = Some (cast_transpose (fst (rendering (current s)))) /\
       norm s = Some (transpose (snd (rendering (current s))))
  else depth s = None /\ norm s = None.

(** A slot holds no task, or one at a level the scheduler produces. *)
Definition level_ok (t : Task) : Prop :=
  valid t = false \/ In (level t) [1; 2; 4; 8].

Definition levels_ok (s : Frame) : Prop :=
  level_ok (current s) /\ level_ok (pending s) /\
  (valid (next s) = true -> level (next s) = 8).

End Scheduler.

Arguments mkTask {E} _ _ _ _ _.
Arguments mkFrame {E} _ _ _ _ _ _ _.
Arguments mkRequest {E} _ _ _ _.
Arguments region_of : simpl never.

(** The frame right after construction, over [toy]. *)
Definition toy_task : @Task toy := mkTask (E := toy) 0 0 0 0 0.
Definition toy_frame : @Frame toy :=
  mkFrame (E := toy) 0 None None toy_task toy_task toy_task NoState.

(** The same frame after [render(5, 64, 64, 64)]: a worker runs on the
    level 8 task. *)
Definition toy_queued : @Frame toy :=
  set_next toy_frame (mkTask (E := toy) 5 64 64 64 8).
Definition toy_running : @Frame toy := dispatch toy_queued.

(** Or, after [render(5, 64, 64, 64)], a second [render(7, 32, 32, 32)],
    the worker's return and a [poll]: the first task is shown while a
    worker runs on the second. *)
Definition toy_superseded : @Frame toy :=
  match render toy_running (7 : @mat4 toy) 32 32 32 with
  | Some s =>
      match poll (worker_return s) with
      | Some (_, s') => s'
      | None => s
      end
  | None => toy_running
  end.

(** Then the worker has returned, and then [poll] was called: the level 8
    result is shown and a worker runs on level 4. *)
Definition toy_returned : @Frame toy := worker_return toy_running.
Definition toy_refining : @Frame toy :=
  match poll toy_returned with
  | Some (_, s) => s
  | None => toy_returned
  end.

(* ===================================================================== *)
(** * Order lemmas for [std::min] and [std::max]                          *)
(* ===================================================================== *)

Section OrderFacts.
Context {T : Type} `{Ordered T}.

Lemma leb_refl (x : T) : leb x x = true.
Proof. unfold leb. now rewrite ltb_irrefl. Qed.

Lemma leb_antisym (x y : T) : leb x y = true -> leb y x = true -> x = y.
Proof.
  unfold leb. rewrite !negb_true_iff. intros Hyx Hxy.
  now apply ltb_connex.
Qed.

Lemma leb_trans (x y z : T) :
  leb x y = true -> leb y z = true -> leb x z = true.
Proof.
  unfold leb. rewrite !negb_true_iff. intros Hyx Hzy.
  destruct (ltb z x) eqn:Hzx; [| reflexivity].
  destruct (ltb x y) eqn:Hxy.
  - rewrite (ltb_trans z x y Hzx Hxy) in Hzy. discriminate.
  - rewrite <- (ltb_connex x y Hxy Hyx) in Hzy. congruence.
Qed.

Lemma leb_total (x y : T) : leb x y = true \/ leb y x = true.
Proof.
  unfold leb. destruct (ltb y x) eqn:Hyx; [right | now left].
  destruct (ltb x y) eqn:Hxy; [| reflexivity].
  pose proof (ltb_trans x y x Hxy Hyx) as Hxx.
  rewrite ltb_irrefl in Hxx. discriminate.
Qed.

Lemma std_min_le_l (a b : T) : leb (std_min a b) a = true.
Proof.
  unfold std_min. destruct (ltb b a) eqn:Hba.
  - destruct (leb_total b a) as [Hle | Hle]; [exact Hle |].
    unfold leb in Hle. rewrite Hba in Hle. discriminate.
  - apply leb_refl.
Qed.

Lemma std_min_le_r (a b : T) : leb (std_min a b) b = true.
Proof.
  unfold std_min. destruct (ltb b a) eqn:Hba.
  - apply leb_refl.
  - unfold leb. now rewrite Hba.
Qed.

Lemma std_min_glb (a b c : T) :
  leb c a = true -> leb c b = true -> leb c (std_min a b) = true.
Proof. unfold std_min. now destruct (ltb b a). Qed.

Lemma std_max_ge_l (a b : T) : leb a (std_max a b) = true.
Proof.
  unfold std_max. destruct (ltb a b) eqn:Hab.
  - destruct (leb_total a b) as [Hle | Hle]; [exact Hle |].
    unfold leb in Hle. rewrite Hab in Hle. discriminate.
  - apply leb_refl.
Qed.

Lemma std_max_ge_r (a b : T) : leb b (std_max a b) = true.
Proof.
  unfold std_max. destruct (ltb a b) eqn:Hab.
  - apply leb_refl.
  - unfold leb. now rewrite Hab.
Qed.

Lemma std_max_lub (a b c : T) :
  leb a c = true -> leb b c = true -> leb (std_max a b) c = true.
Proof. unfold std_max. now destruct (ltb a b). Qed.

Lemma std_min_mono (a b x y : T) :
  leb a x = true -> leb b y = true ->
  leb (std_min a b) (std_min x y) = true.
Proof.
  intros Hax Hby. apply std_min_glb.
  - apply leb_trans with a; [apply std_min_le_l | exact Hax].
  - apply leb_trans with b; [apply std_min_le_r | exact Hby].
Qed.

Lemma std_max_mono (a b x y : T) :
  leb a x = true -> leb b y = true ->
  leb (std_max a b) (std_max x y) = true.
Proof.
  intros Hax Hby. apply std_max_lub.
  - apply leb_trans with x; [exact Hax | apply std_max_ge_l].
  - apply leb_trans with y; [exact Hby | apply std_max_ge_r].
Qed.

Lemma std_min_comm (a b : T) : std_min a b = std_min b a.
Proof.
  apply leb_antisym; apply std_min_glb;
    auto using std_min_le_l, std_min_le_r.
Qed.

Lemma std_max_comm (a b : T) : std_max a b = std_max b a.
Proof.
  apply leb_antisym; apply std_max_lub;
    auto using std_max_ge_l, std_max_ge_r.
Qed.

Lemma std_min_assoc (a b c : T) :
  std_min (std_min a b) c = std_min a (std_min b c).
Proof.
  apply leb_antisym.
  - apply std_min_glb.
    + apply leb_trans with (std_min a b);
        [apply std_min_le_l | apply std_min_le_l].
    + apply std_min_glb.
      * apply leb_trans with (std_min a b);
          [apply std_min_le_l | apply std_min_le_r].
      * apply std_min_le_r.
  - apply std_min_glb.
    + apply std_min_glb.
      * apply std_min_le_l.
      * apply leb_trans with (std_min b c);
          [apply std_min_le_r | apply std_min_le_l].
    + apply leb_trans with (std_min b c);
        [apply std_min_le_r | apply std_min_le_r].
Qed.

Lemma std_max_assoc (a b c : T) :
  std_max (std_max a b) c = std_max a (std_max b c).
Proof.
  apply leb_antisym.
  - apply std_max_lub.
    + apply std_max_lub.
      * apply std_max_ge_l.
      * apply leb_trans with (std_max b c);
          [apply std_max_ge_l | apply std_max_ge_r].
    + apply leb_trans with (std_max b c);
        [apply std_max_ge_r | apply std_max_ge_r].
  - apply std_max_lub.
    + apply leb_trans with (std_max a b);
        [apply std_max_ge_l | apply std_max_ge_l].
    + apply std_max_lub.
      * apply leb_trans with (std_max a b);
          [apply std_max_ge_r | apply std_max_ge_l].
      * apply std_max_ge_r.
Qed.

Lemma std_min_idem (a : T) : std_min a a = a.
Proof. unfold std_min. now rewrite ltb_irrefl. Qed.

Lemma std_max_idem (a : T) : std_max a a = a.
Proof. unfold std_max. now rewrite ltb_irrefl. Qed.

End OrderFacts.

(* ===================================================================== *)
(** * Interval [_min] and [_max]                                          *)
(* ===================================================================== *)

(** C7.  [_min a b] is [[min(lo_a,lo_b), min(hi_a,hi_b)]] and [_max a b] is
    [[max(lo_a,lo_b), max(hi_a,hi_b)]]; both are conservative: whenever [x]
    ranges over [a] and [y] over [b], the pointwise [std::min] (respectively
    [std::max]) of [x] and [y] lies in the result, so the result is never
    narrower than the true range. *)
Theorem min_max_conservative {T : Type} `{Ordered T} (a b : Interval T) :
  (lower (_min a b) = std_min (lower a) (lower b) /\
   upper (_min a b) = std_min (upper a) (upper b)) /\
  (lower (_max a b) = std_max (lower a) (lower b) /\
   upper (_max a b) = std_max (upper a) (upper b)) /\
  (forall x y, contains a x -> contains b y ->
               contains (_min a b) (std_min x y)) /\
  (forall x y, contains a x -> contains b y ->
               contains (_max a b) (std_max x y)).
Proof.
  repeat split; try reflexivity; simpl;
    match goal with
    | Ha : contains a _, Hb : contains b _ |- _ =>
        destruct Ha as [Hal Hau]; destruct Hb as [Hbl Hbu]
    end;
    auto using std_min_mono, std_max_mono.
Qed.

(** C8.  [_min] is commutative, associative and idempotent, and so is
    [_max]. *)
Theorem min_max_algebra {T : Type} `{Ordered T} (a b c : Interval T) :
  (_min a b = _min b a /\
   _min (_min a b) c = _min a (_min b c) /\
   _min a a = a) /\
  (_max a b = _max b a /\
   _max (_max a b) c = _max a (_max b c) /\
   _max a a = a).
Proof.
  destruct a as [la ua], b as [lb ub], c as [lc uc].
  unfold _min, _max, boost_min, boost_max; simpl.
  repeat split.
  - now rewrite (std_min_comm la lb), (std_min_comm ua ub).
  - now rewrite !std_min_assoc.
  - now rewrite !std_min_idem.
  - now rewrite (std_max_comm la lb), (std_max_comm ua ub).
  - now rewrite !std_max_assoc.
  - now rewrite !std_max_idem.
Qed.

(* ===================================================================== *)
(** * Where the [double] arithmetic of [startRender] is exact             *)
(* ===================================================================== *)

Lemma nearest_even_exact (m d : Z) : 0 < d -> nearest_even (m * d) d = m.
Proof.
  intros Hd. unfold nearest_even.
  rewrite Z.div_mul, Z.mod_mul by lia. simpl.
  destruct d; try lia; try reflexivity.
Qed.

Lemma binade_pow2 (n j : Z) :
  0 < n -> 0 <= j -> binade n (2 ^ j) = Z.log2 n - j.
Proof.
  intros Hn Hj. unfold binade. rewrite Z.log2_pow2 by assumption.
  destruct (Z.log2_spec n Hn) as [Hlo _].
  pose proof (Z.log2_nonneg n) as Hk.
  set (k := Z.log2 n) in *.
  destruct (0 <=? k - j) eqn:Ht.
  - apply Z.leb_le in Ht.
    rewrite <- Z.pow_add_r by lia.
    replace (j + (k - j)) with k by lia.
    apply Z.leb_le in Hlo. now rewrite Hlo.
  - apply Z.leb_gt in Ht.
    assert (Hle : 2 ^ j <= n * 2 ^ (- (k - j))).
    { replace j with (k + (- (k - j))) at 1 by lia.
      rewrite Z.pow_add_r by lia.
      apply Z.mul_le_mono_nonneg_r; [apply Z.pow_nonneg; lia | exact Hlo]. }
    apply Z.leb_le in Hle. now rewrite Hle.
Qed.

(** A positive integer below 2^53 divided by a power of two is a
    [double]: rounding leaves the quotient as it is. *)
Lemma round53_pow2 (n j : Z) :
  0 < n < 2 ^ 53 -> 0 <= j ->
  round53 n (2 ^ j) = Qred (Qmake n (Z.to_pos (2 ^ j))).
Proof.
  intros [Hn Hb] Hj. unfold round53. rewrite binade_pow2 by assumption.
  pose proof (Z.log2_nonneg n) as Hk.
  assert (Hk52 : Z.log2 n < 53) by (apply Z.log2_lt_pow2; assumption).
  set (k := Z.log2 n) in *.
  assert (Hpj : 0 < 2 ^ j) by (apply Z.pow_pos_nonneg; lia).
  unfold scaled.
  destruct (0 <=? k - j - 52) eqn:He.
  - apply Z.leb_le in He.
    assert (j = 0) by lia. assert (k = 52) by lia. subst j.
    replace (k - 0 - 52) with 0 by lia.
    change (2 ^ 0) with 1. rewrite Z.mul_1_l.
    rewrite <- (Z.mul_1_r n) at 1. rewrite nearest_even_exact by lia.
    apply Qred_complete. unfold Qeq. cbn [Qnum Qden inject_Z].
    change (Z.pos (Z.to_pos 1)) with 1. lia.
  - apply Z.leb_gt in He.
    replace (- (k - j - 52)) with ((52 - k) + j) by lia.
    rewrite Z.pow_add_r by lia. rewrite Z.mul_assoc.
    rewrite nearest_even_exact by assumption.
    assert (Hpk : 0 < 2 ^ (52 - k)) by (apply Z.pow_pos_nonneg; lia).
    apply Qred_complete. unfold Qeq. cbn [Qnum Qden].
    rewrite <- Z.pow_add_r by lia.
    rewrite !Z2Pos.id by (apply Z.pow_pos_nonneg; lia).
    rewrite Z.pow_add_r by lia. ring.
Qed.

(** A [size_t] below 2^53 converts to [double] without rounding. *)
Lemma of_integer_exact (n : Z) :
  0 <= n < 2 ^ 53 -> of_integer n = Finite (inject_Z n).
Proof.
  intros Hn. unfold of_integer, round_double. simpl.
  destruct n as [| p | p]; [reflexivity | | lia].
  f_equal. change (Z.pos 1) with (2 ^ 0).
  rewrite round53_pow2 by lia.
  apply Qcanon.Qred_identity. exact (Z.gcd_1_r (Z.pos p)).
Qed.

(** [n / (2.0 * L)] for a count below 2^53 and a level the scheduler
    produces is the exact quotient. *)
Lemma count_exact (n L : Z) :
  0 <= n < 2 ^ 53 -> In L [1; 2; 4; 8] ->
  fdiv (of_integer n) (fmul (Finite 2) (of_integer L)) = quotient n (2 * L).
Proof.
  intros Hn HL. rewrite of_integer_exact by assumption.
  assert (Hd : exists j, 0 <= j /\ 2 * L = 2 ^ j /\
                         fmul (Finite 2) (of_integer L) =
                         Finite (inject_Z (2 ^ j))).
  { simpl in HL. destruct HL as [<- | [<- | [<- | [<- | []]]]].
    - exists 1. split; [lia | split; [reflexivity | vm_compute; reflexivity]].
    - exists 2. split; [lia | split; [reflexivity | vm_compute; reflexivity]].
    - exists 3. split; [lia | split; [reflexivity | vm_compute; reflexivity]].
    - exists 4. split; [lia | split; [reflexivity | vm_compute; reflexivity]]. }
  destruct Hd as (j & Hj & -> & ->).
  assert (Hpj : 0 < 2 ^ j) by (apply Z.pow_pos_nonneg; lia).
  unfold fdiv, quotient. simpl.
  destruct (2 ^ j) as [| d | d] eqn:Hpow; try lia. simpl.
  f_equal. unfold round_double. simpl. rewrite Z.mul_1_r.
  destruct n as [| p | p]; [reflexivity | | lia].
  rewrite <- Hpow. rewrite round53_pow2 by lia.
  rewrite Hpow. reflexivity.
Qed.

(** The region of a task whose counts are below 2^53 and whose level is
    one the scheduler produces. *)
Lemma region_of_exact {E : Extern} (t : Task) :
  In (level t) [1; 2; 4; 8] ->
  0 <= ni t < 2 ^ 53 -> 0 <= nj t < 2 ^ 53 -> 0 <= nk t < 2 ^ 53 ->
  region_of t =
  mkRegion (mkInterval (-1) 1) (mkInterval (-1) 1) (mkInterval (-1) 1)
           (quotient (ni t) (2 * level t)) (quotient (nj t) (2 * level t))
           (quotient (nk t) (2 * level t)).
Proof.
  intros Hl Hi Hj Hk. unfold region_of.
  now rewrite !count_exact by assumption.
Qed.

(* ===================================================================== *)
(** * The scheduler                                                       *)
(* ===================================================================== *)

Section SchedulerFacts.
Context {E : Extern}.

Lemma halved_valid (t : Task) :
  (1 <? level t) = true -> (0 <? level t / 2) = true.
Proof.
  rewrite Z.ltb_lt. intros Hl. apply Z.ltb_lt, Z.div_str_pos. lia.
Qed.

(** [startRender] without its recursion: the recursive call always lands
    in the first branch. *)
Lemma startRender_closed (s : Frame) :
  startRender s =
  if asserts_hold s then
    if valid (next s) then Some (dispatch s)
    else if 1 <? level (current s) then Some (dispatch (refine s))
         else Some s
  else None.
Proof.
  funelim (startRender s).
  - now rewrite Heq.
  - now rewrite Heq, e.
  - rewrite H, Heq, Hn, Hc.
    change (asserts_hold (refine s)) with (asserts_hold s).
    change (valid (next (refine s))) with (0 <? level (current s) / 2).
    now rewrite Heq, (halved_valid _ Hc).
  - now rewrite Heq, Hn, e.
Qed.

(** On a state that passes the asserts with a task queued, the call
    dispatches it. *)
Lemma startRender_queued (s : Frame) :
  future s = NoState -> valid (pending s) = false ->
  valid (next s) = true -> startRender s = Some (dispatch s).
Proof.
  intros Hf Hp Hn. rewrite startRender_closed.
  unfold asserts_hold. now rewrite Hf, Hp, Hn.
Qed.

(** [render] while the future has a shared state only writes [next]. *)
Lemma render_busy (s : Frame) m a b c :
  future_valid (future s) = true ->
  render s m a b c = Some (set_next s (mkTask m a b c 8)).
Proof. intros Hf. unfold render. simpl. now rewrite Hf. Qed.

(** [render] without a worker in flight dispatches the new task. *)
Lemma render_free (s : Frame) m a b c :
  future s = NoState -> valid (pending s) = false ->
  render s m a b c = Some (dispatch (set_next s (mkTask m a b c 8))).
Proof.
  intros Hf Hp. unfold render. simpl. rewrite Hf. simpl.
  now apply startRender_queued.
Qed.

Lemma poll_ready (s : Frame) out :
  future s = Ready out ->
  poll s =
  Some (true,
        if valid (next s) then dispatch (promoted s out)
        else if 1 <? level (pending s)
             then dispatch (refine (promoted s out))
             else promoted s out).
Proof.
  intros Hf. unfold poll. rewrite Hf.
  rewrite startRender_closed.
  unfold asserts_hold. simpl.
  destruct (valid (next s)); [reflexivity |].
  now destruct (1 <? level (pending s)).
Qed.

Lemma initial_invariant (s : Frame) : initial s -> invariant s.
Proof.
  intros (Hc & Hp & Hn & Hf & _). split.
  - now rewrite Hf, Hp.
  - intros _. split; [exact Hn |].
    unfold valid in Hc. apply Z.ltb_ge in Hc. apply Z.ltb_ge. lia.
Qed.

Lemma step_invariant (s s' : Frame) :
  invariant s -> step s s' -> invariant s'.
Proof.
  intros [Hv Hi] Hs. destruct Hs as [s m a b c s' Hr | s b s' Hp | s r Hf].
  - destruct (future_valid (future s)) eqn:Hfv.
    + rewrite render_busy in Hr by assumption.
      injection Hr as <-. split; simpl.
      * now rewrite Hfv.
      * intros Hf. rewrite Hf in Hfv. discriminate.
    + assert (Hf : future s = NoState) by (now destruct (future s)).
      rewrite render_free in Hr by (auto; congruence).
      injection Hr as <-. split; simpl; [reflexivity | discriminate].
  - destruct (future s) as [| r | out] eqn:Hf.
    + unfold poll in Hp. rewrite Hf in Hp.
      injection Hp as _ <-. unfold invariant. now rewrite Hf.
    + unfold poll in Hp. rewrite Hf in Hp.
      injection Hp as _ <-. unfold invariant. now rewrite Hf.
    + rewrite (poll_ready s out Hf) in Hp. injection Hp as _ <-.
      destruct (valid (next s)) eqn:Hn.
      * split; simpl; [now rewrite Hn | discriminate].
      * destruct (1 <? level (pending s)) eqn:Hl.
        -- split; simpl; [| discriminate].
           unfold valid; simpl. now rewrite halved_valid.
        -- split; simpl; [reflexivity | auto].
  - unfold worker_return. rewrite Hf. split; simpl.
    + now rewrite <- Hv, Hf.
    + discriminate.
Qed.

Lemma reachable_invariant (s : Frame) : reachable s -> invariant s.
Proof.
  induction 1 as [s Hi | s s' _ IH Hs].
  - now apply initial_invariant.
  - now apply step_invariant with s.
Qed.

(** C3.  In every reachable state the future has a shared state exactly
    when a task is pending, so at most one worker is in flight; neither
    [render] nor [poll] can trip the two asserts of [startRender], the
    only place that starts a worker; a successful [startRender] began
    with no shared state and no pending task; and while a worker runs,
    a step either is that worker's return or leaves the running worker,
    the pending task and the tree's matrix as they are. *)
Theorem one_worker_at_a_time (s : Frame) :
  reachable s ->
  future_valid (future s) = valid (pending s) /\
  (forall m a b c, exists s', render s m a b c = Some s') /\
  (exists b s', poll s = Some (b, s')) /\
  (forall s', startRender s = Some s' ->
              future s = NoState /\ valid (pending s) = false) /\
  (forall r s', future s = Running r -> step s s' ->
                s' = worker_return s \/
                (future s' = Running r /\ pending s' = pending s /\
                 tree s' = tree s)).
Proof.
  intros Hr. destruct (reachable_invariant s Hr) as [Hv Hi].
  split; [exact Hv |]. split; [| split; [| split]].
  - intros m a b c. destruct (future_valid (future s)) eqn:Hfv.
    + eexists. now apply render_busy.
    + assert (Hf : future s = NoState) by (now destruct (future s)).
      eexists. apply render_free; congruence.
  - destruct (future s) as [| r | out] eqn:Hf.
    + exists false, s. unfold poll. now rewrite Hf.
    + exists false, s. unfold poll. now rewrite Hf.
    + exists true. eexists. exact (poll_ready s out Hf).
  - intros s' Hs. rewrite startRender_closed in Hs.
    unfold asserts_hold in Hs.
    destruct (future s); simpl in Hs; try discriminate.
    destruct (valid (pending s)); simpl in Hs; [discriminate | auto].
  - intros r s' Hf Hs.
    destruct Hs as [s m a b c s' Hq | s b s' Hp | s r' Hf'].
    + rewrite render_busy in Hq by (now rewrite Hf).
      injection Hq as <-. right. simpl. auto.
    + unfold poll in Hp. rewrite Hf in Hp. injection Hp as _ <-.
      right. auto.
    + now left.
Qed.

(** C4.  In a reachable state, [render m ni nj nk] builds the task
    [(m, ni, nj, nk)] at level 8.  With a task pending the only effect is
    that this task is stored as [next], replacing whatever was queued;
    with no task pending it is moved on to [pending] at once and
    dispatched, [next] being cleared. *)
Theorem render_spec (s : Frame) (m : mat4) (a b c : Z) :
  reachable s ->
  let t := mkTask m a b c 8 in
  level t = 8 /\
  if valid (pending s)
  then render s m a b c = Some (set_next s t) /\
       next (set_next s t) = t /\
       pending (set_next s t) = pending s /\
       future (set_next s t) = future s
  else exists s', render s m a b c = Some s' /\
                  pending s' = t /\ valid (next s') = false /\
                  future s' = Running (region_of t) /\
                  current s' = current s.
Proof.
  intros Hr t. split; [reflexivity |].
  destruct (reachable_invariant s Hr) as [Hv _].
  destruct (valid (pending s)) eqn:Hp.
  - repeat split. now apply render_busy.
  - assert (Hf : future s = NoState) by (now destruct (future s)).
    eexists. split; [now apply render_free |]. simpl. auto.
Qed.

(** C2.  [poll] on a future that is not ready (no shared state, or a
    worker still running) returns [false] and the state it was given.  On
    a ready future it returns [true]; the state it returns is what
    [startRender] makes of the promoted state, in which the result has
    been taken and uploaded, [current] is the former [pending], [pending]
    is cleared and the future has no shared state. *)
Theorem poll_spec (s : Frame) :
  match future s with
  | Ready out =>
      let p := promoted s out in
      (current p = pending s /\ valid (pending p) = false /\
       future p = NoState /\ next p = next s) /\
      exists s', poll s = Some (true, s') /\
                 startRender p = Some s' /\
                 current s' = pending s /\
                 depth s' = Some (cast_transpose (fst out)) /\
                 norm s' = Some (transpose (snd out))
  | _ => poll s = Some (false, s)
  end.
Proof.
  destruct (future s) as [| r | out] eqn:Hf;
    try (unfold poll; now rewrite Hf).
  split; [repeat split |].
  pose proof (poll_ready s out Hf) as Hp.
  unfold poll in *. rewrite Hf in *.
  destruct (startRender (promoted s out)) as [s2 |]; [| discriminate].
  exists s2. split; [reflexivity |]. split; [reflexivity |].
  injection Hp as ->.
  destruct (valid (next s)); [now repeat split |].
  destruct (1 <? level (pending s)); now repeat split.
Qed.

Lemma renders_busy (qs : list Request) (q : Request) (s : Frame) :
  future_valid (future s) = true ->
  renders (qs ++ [q]) s = Some (set_next s (coarsest q)).
Proof.
  revert s. induction qs as [| q0 qs IH]; intros s Hf; simpl.
  - now rewrite render_busy.
  - rewrite render_busy by assumption. now rewrite IH.
Qed.

(** C1.  While the future has a shared state (a worker is running, or has
    returned and was not polled yet), any run of [render] calls ending
    with request [q] leaves everything but [next] as it was, [next]
    being the task of [q] alone: the worker, the pending task, [current]
    and the tree's matrix are untouched.  Once the worker has returned,
    the following [poll] returns [true], promotes the task that was
    pending and uploads its result, and dispatches the task of [q]. *)
Theorem render_while_pending (s : Frame) (qs : list Request) (q : Request) :
  future_valid (future s) = true ->
  let s' := set_next s (coarsest q) in
  renders (qs ++ [q]) s = Some s' /\
  (future s' = future s /\ pending s' = pending s /\
   current s' = current s /\ tree s' = tree s) /\
  exists out s2,
    outcome s = Some out /\
    poll (worker_return s') = Some (true, s2) /\
    current s2 = pending s /\
    depth s2 = Some (cast_transpose (fst out)) /\
    norm s2 = Some (transpose (snd out)) /\
    pending s2 = coarsest q /\ valid (next s2) = false /\
    future s2 = Running (region_of (coarsest q)).
Proof.
  intros Hf s'. split; [now apply renders_busy |].
  split; [repeat split |].
  unfold outcome, worker_return, s'. simpl.
  destruct (future s) as [| r | out] eqn:Hfs; [discriminate | |].
  - eexists _, _. split; [reflexivity |].
    split; [now apply poll_ready |]. simpl. now repeat split.
  - rewrite Hfs. exists out. eexists. split; [reflexivity |].
    split; [apply poll_ready; simpl; exact Hfs |]. simpl.
    now repeat split.
Qed.

(** One round of the refinement chain: nothing is queued and the pending
    level is above 1. *)
Lemma refine_round (s : Frame) (r : Region) :
  future s = Running r -> valid (next s) = false ->
  (1 <? level (pending s)) = true ->
  exists s1,
    poll (worker_return s) = Some (true, s1) /\
    current s1 = pending s /\
    pending s1 = with_level (pending s) (level (pending s) / 2) /\
    valid (next s1) = false /\
    future s1 = Running (region_of (pending s1)).
Proof.
  intros Hf Hn Hl. eexists. split.
  - unfold worker_return. rewrite Hf. rewrite poll_ready with (out := _)
      by reflexivity.
    simpl. rewrite Hn, Hl. reflexivity.
  - simpl. now repeat split.
Qed.

(** The last round: nothing is queued and the pending level is 1 (or
    less), so the scheduler comes to rest. *)
Lemma last_round (s : Frame) (r : Region) :
  future s = Running r -> valid (next s) = false ->
  (1 <? level (pending s)) = false ->
  exists s1,
    poll (worker_return s) = Some (true, s1) /\
    current s1 = pending s /\ pending s1 = reset (pending s) /\
    idle s1.
Proof.
  intros Hf Hn Hl. eexists. split.
  - unfold worker_return. rewrite Hf. rewrite poll_ready with (out := _)
      by reflexivity.
    simpl. rewrite Hn, Hl. reflexivity.
  - simpl. unfold idle. simpl. now repeat split.
Qed.

(** At rest every operation but [render] leaves the state alone. *)
Lemma idle_stays (s : Frame) :
  idle s -> (1 <? level (current s)) = false ->
  poll s = Some (false, s) /\ worker_return s = s /\
  startRender s = Some s.
Proof.
  intros (Hf & Hp & Hn) Hl. repeat split.
  - unfold poll. now rewrite Hf.
  - unfold worker_return. now rewrite Hf.
  - rewrite startRender_closed. unfold asserts_hold.
    now rewrite Hf, Hp, Hn, Hl.
Qed.

(** The chain from any level: with a worker running on a pending task of
    level at least 1 and below [2 ^ k], and nothing queued, at most [k]
    successful polls bring the scheduler to rest with [current] at
    level 1, transform and resolution unchanged. *)
Lemma refine_chain (k : nat) :
  forall (s : Frame) (r : Region),
    future s = Running r -> valid (next s) = false ->
    1 <= level (pending s) < 2 ^ Z.of_nat k ->
    exists n l s',
      (n <= k)%nat /\ successful_polls n s = Some (l, s') /\
      idle s' /\ current s' = with_level (pending s) 1.
Proof.
  induction k as [| k IH]; intros s r Hf Hn Hl.
  - simpl in Hl. lia.
  - rewrite Nat2Z.inj_succ, Z.pow_succ_r in Hl by lia.
    destruct (1 <? level (pending s)) eqn:Hgt.
    + destruct (refine_round s r Hf Hn Hgt)
        as (s1 & P1 & C1 & Q1 & N1 & F1).
      apply Z.ltb_lt in Hgt.
      destruct (IH s1 _ F1 N1) as (n & l & s' & Hle & Hrun & Hidle & Hcur).
      { rewrite Q1. simpl.
        split.
        - apply Z.div_le_lower_bound; lia.
        - apply Z.div_lt_upper_bound; lia. }
      exists (S n), ((current s1, pending s1) :: l), s'.
      split; [lia |]. split; [| split; [exact Hidle |]].
      * simpl. now rewrite P1, Hrun.
      * rewrite Hcur, Q1. reflexivity.
    + destruct (last_round s r Hf Hn Hgt) as (s1 & P1 & C1 & Q1 & I1).
      apply Z.ltb_ge in Hgt.
      exists 1%nat, [(current s1, pending s1)], s1.
      split; [lia |]. split; [| split; [exact I1 |]].
      * simpl. now rewrite P1.
      * rewrite C1. destruct (pending s) as [pm pa pb pc pl].
        unfold with_level. simpl in *. f_equal. lia.
Qed.

(** C5.  From a state whose pending task is [(m, ni, nj, nk)] at level 8,
    with a worker running on it and nothing queued, and with no further
    [render], the polls that follow the worker's returns succeed exactly
    four times: each of the first three promotes the pending task and
    dispatches the same transform and resolution at half the level
    (8, 4, 2, then 1), the fourth promotes level 1 and leaves the
    scheduler at rest, where [poll] returns [false] and [startRender]
    does nothing. *)
Theorem auto_refine_terminates (s : Frame) (r : Region) (m : mat4)
        (a b c : Z) :
  future s = Running r -> valid (next s) = false ->
  pending s = mkTask m a b c 8 ->
  let T := mkTask m a b c in
  exists s4,
    successful_polls 4 s =
      Some ([(T 8, T 4); (T 4, T 2); (T 2, T 1); (T 1, T 0)], s4) /\
    current s4 = T 1 /\ idle s4 /\
    poll s4 = Some (false, s4) /\ worker_return s4 = s4 /\
    startRender s4 = Some s4.
Proof.
  intros Hf Hn Hp T.
  destruct (refine_round s r Hf Hn) as (s1 & P1 & C1 & Q1 & N1 & F1);
    [now rewrite Hp |].
  rewrite Hp in C1, Q1.
  change (with_level (mkTask m a b c 8) (level (mkTask m a b c 8) / 2))
    with (T 4) in Q1.
  destruct (refine_round s1 _ F1 N1) as (s2 & P2 & C2 & Q2 & N2 & F2);
    [now rewrite Q1 |].
  rewrite Q1 in C2, Q2.
  change (with_level (T 4) (level (T 4) / 2)) with (T 2) in Q2.
  destruct (refine_round s2 _ F2 N2) as (s3 & P3 & C3 & Q3 & N3 & F3);
    [now rewrite Q2 |].
  rewrite Q2 in C3, Q3.
  change (with_level (T 2) (level (T 2) / 2)) with (T 1) in Q3.
  destruct (last_round s3 _ F3 N3) as (s4 & P4 & C4 & Q4 & I4);
    [now rewrite Q3 |].
  rewrite Q3 in C4, Q4. change (reset (T 1)) with (T 0) in Q4.
  exists s4. split.
  - simpl. rewrite P1, P2, P3, P4.
    now rewrite C1, Q1, C2, Q2, C3, Q3, C4, Q4.
  - split; [exact C4 |]. split; [exact I4 |].
    apply idle_stays; [exact I4 | now rewrite C4].
Qed.

(** What a successful [startRender] that leaves a worker running did:
    it dispatched the task it left in [pending]. *)
Lemma startRender_dispatched (s s' : Frame) (r : Region) :
  startRender s = Some s' -> future s' = Running r ->
  exists s0, s' = dispatch s0 /\ valid (next s0) = true /\
             tree s0 = tree s /\ current s0 = current s /\
             next s0 = (if valid (next s) then next s
                        else with_level (current s)
                                        (level (current s) / 2)).
Proof.
  rewrite startRender_closed. unfold asserts_hold.
  destruct (future s) eqn:Hf; simpl; try discriminate.
  destruct (valid (pending s)); simpl; try discriminate.
  destruct (valid (next s)) eqn:Hn.
  - intros [= <-] _. exists s. now rewrite Hn.
  - destruct (1 <? level (current s)) eqn:Hl.
    + intros [= <-] _. exists (refine s). repeat split.
      unfold valid; simpl. now apply halved_valid.
    + intros [= <-] Hr. congruence.
Qed.

(** C6.  Whenever [startRender] leaves a worker running, the region the
    worker was given has the extents [-1, 1] on each axis, whatever the
    task and its level.  Its voxel counts are those of the dispatched task
    (the one left in [pending]): for [size_t] counts, the quotients
    [ni / div], [nj / div], [nk / div] in [double] arithmetic with
    [div = 2.0 * level]; and for a level the scheduler produces (1, 2, 4
    or 8) and counts below 2^53, where that arithmetic does not round,
    exactly [ni / (2 * level)], [nj / (2 * level)] and
    [nk / (2 * level)]. *)
Theorem dispatched_region (s s' : Frame) (r : Region) :
  startRender s = Some s' -> future s' = Running r ->
  let t := pending s' in
  (valid t = true /\
   X r = mkInterval (-1) 1 /\ Y r = mkInterval (-1) 1 /\
   Z_ r = mkInterval (-1) 1) /\
  (0 <= ni t < 2 ^ 64 -> 0 <= nj t < 2 ^ 64 -> 0 <= nk t < 2 ^ 64 ->
   let div := fmul (Finite 2) (of_integer (level t)) in
   vi r = fdiv (of_integer (ni t)) div /\
   vj r = fdiv (of_integer (nj t)) div /\
   vk r = fdiv (of_integer (nk t)) div) /\
  (In (level t) [1; 2; 4; 8] ->
   0 <= ni t < 2 ^ 53 -> 0 <= nj t < 2 ^ 53 -> 0 <= nk t < 2 ^ 53 ->
   vi r = quotient (ni t) (2 * level t) /\
   vj r = quotient (nj t) (2 * level t) /\
   vk r = quotient (nk t) (2 * level t)).
Proof.
  intros Hs Hr t.
  destruct (startRender_dispatched s s' r Hs Hr) as (s0 & -> & Hv & _).
  simpl in Hr. injection Hr as Hr. subst r t.
  change (pending (dispatch s0)) with (next s0). split; [| split].
  - now repeat split.
  - intros _ _ _ div. now repeat split.
  - intros Hl Hi Hj Hk. rewrite region_of_exact by assumption.
    now repeat split.
Qed.

(** C10.  Whenever [startRender] leaves a worker running, the matrix
    installed in the tree is the inverse of the dispatched task's matrix,
    while the task left in [pending] keeps the matrix as it was requested
    (that of the queued task, or that of [current] for a refinement).
    After the worker's return and the next [poll] this task is [current];
    and in every state in which it is [current], whatever the tree and the
    other slots hold by then, [draw m] uploads [m * inverse mat] for the
    matrix [mat] of this task. *)
Theorem dispatched_matrix (s s' : Frame) (r : Region) :
  startRender s = Some s' -> future s' = Running r ->
  tree s' = inverse (mat (pending s')) /\
  mat (pending s') = (if valid (next s) then mat (next s)
                      else mat (current s)) /\
  (exists s2, poll (worker_return s') = Some (true, s2) /\
              current s2 = pending s') /\
  (forall (s2 : Frame) (m : mat4),
      current s2 = pending s' ->
      draw s2 m = Some (mul m (inverse (mat (pending s'))))).
Proof.
  intros Hs Hr.
  destruct (startRender_dispatched s s' r Hs Hr)
    as (s0 & -> & Hv & _ & _ & Hn).
  split; [reflexivity |]. split; [| split].
  - simpl. rewrite Hn. now destruct (valid (next s)).
  - eexists. split.
    + unfold worker_return. simpl.
      rewrite poll_ready with (out := _) by reflexivity. reflexivity.
    + simpl. now destruct (1 <? level (next s0)).
  - intros s2 m Hc. unfold draw. rewrite Hc. simpl. now rewrite Hv.
Qed.

(** C9, as the code has it.  [render] does not look at its arguments: a
    request with a zero count is handled like any other.  Without a
    worker in flight it is dispatched at once, at level 8, and the
    worker is given a region whose voxel counts are, for requested counts
    below 2^53, exactly the requested ones divided by 16, zero included. *)
Theorem render_accepts_degenerate (s : Frame) (m : mat4) (a b c : Z) :
  (a = 0 \/ b = 0 \/ c = 0) ->
  0 <= a < 2 ^ 53 -> 0 <= b < 2 ^ 53 -> 0 <= c < 2 ^ 53 ->
  future s = NoState -> valid (pending s) = false ->
  exists s', render s m a b c = Some s' /\
             pending s' = mkTask m a b c 8 /\
             future s' =
               Running (mkRegion (mkInterval (-1) 1) (mkInterval (-1) 1)
                                 (mkInterval (-1) 1)
                                 (quotient a 16) (quotient b 16)
                                 (quotient c 16)) /\
             tree s' = inverse m.
Proof.
  intros _ Ha Hb Hc Hf Hp. eexists. split; [now apply render_free |].
  simpl. split; [reflexivity |]. split; [| reflexivity].
  rewrite region_of_exact; simpl; auto.
Qed.

End SchedulerFacts.

(* ===================================================================== *)
(** * The theorems at work on [toy]                                       *)
(* ===================================================================== *)

Example min_with_infinities :
  _min (mkInterval NegInf (Fin 3)) (mkInterval (Fin 1) PosInf) =
  mkInterval NegInf (Fin 3).
Proof. reflexivity. Qed.

Example max_with_infinities :
  _max (mkInterval NegInf (Fin 3)) (mkInterval (Fin 1) PosInf) =
  mkInterval (Fin 1) PosInf.
Proof. reflexivity. Qed.

Example min_of_overlapping :
  _min (mkInterval 0 5) (mkInterval 2 3) = mkInterval 0 3 /\
  _max (mkInterval 0 5) (mkInterval 2 3) = mkInterval 2 5.
Proof. split; reflexivity. Qed.

Example poll_while_running : poll toy_running = Some (false, toy_running).
Proof. reflexivity. Qed.

Example draw_before_first_result : draw toy_running (3 : @mat4 toy) = None.
Proof. reflexivity. Qed.

Example first_result_drawn :
  option_map (fun bs => draw (snd bs) (3 : @mat4 toy))
             (poll (worker_return toy_running)) = Some (Some (3 + - 5)).
Proof. vm_compute. reflexivity. Qed.

(** Counts in [double] arithmetic: exact below 2^53, rounded to the
    nearest [double] (ties to even) from there on. *)
Example counts_of_small_requests :
  region_of (mkTask (E := toy) 5 100 64 7 8) =
  mkRegion (mkInterval (-1) 1) (mkInterval (-1) 1) (mkInterval (-1) 1)
           (Finite (25 # 4)) (Finite 4) (Finite (7 # 16)).
Proof. vm_compute. reflexivity. Qed.

Example counts_of_huge_requests :
  region_of (mkTask (E := toy) 5 (2 ^ 53 + 15) (2 ^ 64 - 1) (2 ^ 53 + 1) 8) =
  mkRegion (mkInterval (-1) 1) (mkInterval (-1) 1) (mkInterval (-1) 1)
           (Finite (inject_Z (2 ^ 49 + 1))) (Finite (inject_Z (2 ^ 60)))
           (Finite (inject_Z (2 ^ 49))).
Proof. vm_compute. reflexivity. Qed.

Example conversion_rounds_to_even :
  of_integer (2 ^ 53 + 1) = Finite (inject_Z (2 ^ 53)) /\
  of_integer (2 ^ 53 + 3) = Finite (inject_Z (2 ^ 53 + 4)) /\
  of_integer (2 ^ 64 - 1) = Finite (inject_Z (2 ^ 64)).
Proof. repeat split; vm_compute; reflexivity. Qed.

Example division_rounds :
  fdiv (of_integer 1) (fmul (Finite 2) (of_integer 3)) =
  Finite (6004799503160661 # 36028797018963968) /\
  fdiv (of_integer 7) (fmul (Finite 2) (of_integer 0)) = Infinity false.
Proof. split; vm_compute; reflexivity. Qed.

(** The matrix [draw] uses is that of [current], not the one in the tree:
    after [render(5, ...)], [render(7, ...)], the worker's return and a
    [poll], the tree holds the inverse of 7 and [draw] compensates for
    5. *)
Example draw_uses_current :
  mat (current toy_superseded) = (5 : @mat4 toy) /\
  mat (pending toy_superseded) = (7 : @mat4 toy) /\
  tree toy_superseded = (- 7 : @mat4 toy) /\
  draw toy_superseded (3 : @mat4 toy) = Some (3 + - 5).
Proof. repeat split; vm_compute; reflexivity. Qed.

Lemma toy_frame_initial : initial toy_frame.
Proof. repeat split. Defined.

Lemma toy_running_reachable : reachable toy_running.
Proof.
  apply reach_step with toy_frame.
  - apply reach_init, toy_frame_initial.
  - apply (step_render toy_frame (5 : @mat4 toy) 64 64 64). reflexivity.
Defined.

Lemma one_worker_at_a_time_witness :
  reachable toy_running /\
  future_valid (future toy_running) = valid (pending toy_running) /\
  (exists b s', poll toy_running = Some (b, s')).
Proof.
  split; [exact toy_running_reachable |].
  destruct (one_worker_at_a_time toy_running toy_running_reachable)
    as (Hv & _ & Hp & _).
  exact (conj Hv Hp).
Defined.

Lemma render_spec_witness :
  reachable toy_running /\
  render toy_running (7 : @mat4 toy) 32 32 32 =
  Some (set_next toy_running (mkTask (E := toy) 7 32 32 32 8)).
Proof.
  split; [exact toy_running_reachable |].
  exact (proj1 (proj2 (render_spec toy_running (7 : @mat4 toy) 32 32 32
                                   toy_running_reachable))).
Defined.

Lemma render_while_pending_witness :
  future_valid (future toy_running) = true /\
  renders [mkRequest (E := toy) 6 16 16 16; mkRequest (E := toy) 7 32 32 32]
          toy_running =
  Some (set_next toy_running (mkTask (E := toy) 7 32 32 32 8)).
Proof.
  split; [reflexivity |].
  exact (proj1 (render_while_pending
                  toy_running [mkRequest (E := toy) 6 16 16 16]
                  (mkRequest (E := toy) 7 32 32 32) eq_refl)).
Defined.

Lemma auto_refine_terminates_witness :
  (future toy_running = Running (region_of (mkTask (E := toy) 5 64 64 64 8)) /\
   valid (next toy_running) = false /\
   pending toy_running = mkTask (E := toy) 5 64 64 64 8) /\
  exists s4,
    successful_polls 4 toy_running =
      Some ([(mkTask (E := toy) 5 64 64 64 8, mkTask (E := toy) 5 64 64 64 4);
             (mkTask (E := toy) 5 64 64 64 4, mkTask (E := toy) 5 64 64 64 2);
             (mkTask (E := toy) 5 64 64 64 2, mkTask (E := toy) 5 64 64 64 1);
             (mkTask (E := toy) 5 64 64 64 1, mkTask (E := toy) 5 64 64 64 0)],
            s4) /\
    current s4 = mkTask (E := toy) 5 64 64 64 1 /\ idle s4.
Proof.
  split; [repeat split |].
  destruct (auto_refine_terminates
              toy_running (region_of (mkTask (E := toy) 5 64 64 64 8))
              (5 : @mat4 toy) 64 64 64 eq_refl eq_refl eq_refl)
    as (s4 & Hrun & Hcur & Hidle & _).
  exists s4. exact (conj Hrun (conj Hcur Hidle)).
Defined.

Lemma dispatched_region_witness :
  (startRender toy_queued = Some toy_running /\
   future toy_running =
   Running (region_of (mkTask (E := toy) 5 64 64 64 8))) /\
  (In 8 [1; 2; 4; 8] /\ 0 <= 64 < 2 ^ 53) /\
  vi (region_of (mkTask (E := toy) 5 64 64 64 8)) = quotient 64 (2 * 8) /\
  quotient 64 (2 * 8) = Finite 4.
Proof.
  split; [split; reflexivity |].
  split; [split; [simpl; auto | lia] |].
  split; [| reflexivity].
  refine (proj1 (proj2 (proj2 (dispatched_region toy_queued toy_running _
                                                 eq_refl eq_refl))
                       _ _ _ _));
    simpl; auto; lia.
Defined.

Lemma dispatched_matrix_witness :
  (startRender toy_queued = Some toy_running /\
   future toy_running = Running (region_of (next toy_queued))) /\
  tree toy_running = inverse (mat (pending toy_running)) /\
  mat (pending toy_running) = (5 : @mat4 toy) /\
  (current toy_superseded = pending toy_running /\
   tree toy_superseded = (- 7 : @mat4 toy) /\
   draw toy_superseded (3 : @mat4 toy) = Some (3 + - 5)).
Proof.
  split; [split; reflexivity |].
  destruct (dispatched_matrix toy_queued toy_running _ eq_refl eq_refl)
    as (Ht & Hm & _ & Hd).
  split; [exact Ht |]. split; [exact Hm |].
  split; [vm_compute; reflexivity |]. split; [vm_compute; reflexivity |].
  apply (Hd toy_superseded (3 : @mat4 toy)). vm_compute. reflexivity.
Defined.

(** C9 as the spec states it fails: a request with zero counts, made on a
    fresh frame, is not a no-op.  The state changes, a task is created and
    a worker is started on a region of zero voxels. *)
Lemma degenerate_request_dispatched :
  render toy_frame (5 : @mat4 toy) 0 0 0 <> Some toy_frame /\
  exists s', render toy_frame (5 : @mat4 toy) 0 0 0 = Some s' /\
             pending s' = mkTask (E := toy) 5 0 0 0 8 /\
             future s' =
               Running (mkRegion (mkInterval (-1) 1) (mkInterval (-1) 1)
                                 (mkInterval (-1) 1)
                                 (Finite 0) (Finite 0) (Finite 0)).
Proof.
  split.
  - intros Heq. apply (f_equal (option_map future)) in Heq.
    vm_compute in Heq. discriminate.
  - exists (dispatch (set_next toy_frame (mkTask (E := toy) 5 0 0 0 8))).
    split; [vm_compute; reflexivity |]. split; reflexivity.
Qed.

Lemma render_accepts_degenerate_witness :
  ((0 = 0 \/ 100 = 0 \/ 0 = 0) /\
   (0 <= 0 < 2 ^ 53 /\ 0 <= 100 < 2 ^ 53) /\
   future toy_frame = NoState /\ valid (pending toy_frame) = false) /\
  exists s', render toy_frame (5 : @mat4 toy) 0 100 0 = Some s' /\
             pending s' = mkTask (E := toy) 5 0 100 0 8 /\
             future s' =
               Running (mkRegion (mkInterval (-1) 1) (mkInterval (-1) 1)
                                 (mkInterval (-1) 1)
                                 (quotient 0 16) (quotient 100 16)
                                 (quotient 0 16)).
Proof.
  split; [repeat split; try (now left); lia |].
  assert (H0 : 0 <= 0 < 2 ^ 53) by lia.
  assert (H100 : 0 <= 100 < 2 ^ 53) by lia.
  destruct (render_accepts_degenerate toy_frame (5 : @mat4 toy) 0 100 0
              (or_introl eq_refl) H0 H100 H0 eq_refl eq_refl)
    as (s' & Hr & Hp & Hf & _).
  exists s'. exact (conj Hr (conj Hp Hf)).
Defined.


(* ===================================================================== *)
(** * More on [_min] and [_max]                                           *)
(* ===================================================================== *)

Section IntervalLattice.
Context {T : Type} `{Ordered T}.

Lemma std_min_l (a b : T) : leb a b = true -> std_min a b = a.
Proof.
  intros Hab. apply leb_antisym.
  - apply std_min_le_l.
  - apply std_min_glb; [apply leb_refl | exact Hab].
Qed.

Lemma std_max_l (a b : T) : leb b a = true -> std_max a b = a.
Proof.
  intros Hba. apply leb_antisym.
  - apply std_max_lub; [apply leb_refl | exact Hba].
  - apply std_max_ge_l.
Qed.

(** The lower bound of [_min a b] is below [z], so clamping [z] from below
    by both lower bounds and taking the minimum gives [z] back. *)
Lemma min_of_clamped (z la lb : T) :
  leb (std_min la lb) z = true ->
  std_min (std_max z la) (std_max z lb) = z.
Proof.
  intros Hz. apply leb_antisym.
  - destruct (leb_total la lb) as [Hl | Hl].
    + rewrite (std_min_l la lb Hl) in Hz.
      rewrite (std_max_l z la Hz). apply std_min_le_l.
    + rewrite std_min_comm in Hz. rewrite (std_min_l lb la Hl) in Hz.
      rewrite (std_max_l z lb Hz). apply std_min_le_r.
  - apply std_min_glb; apply std_max_ge_l.
Qed.

Lemma max_of_clamped (z ua ub : T) :
  leb z (std_max ua ub) = true ->
  std_max (std_min z ua) (std_min z ub) = z.
Proof.
  intros Hz. apply leb_antisym.
  - apply std_max_lub; apply std_min_le_l.
  - destruct (leb_total ua ub) as [Hu | Hu].
    + rewrite std_max_comm in Hz. rewrite (std_max_l ub ua Hu) in Hz.
      rewrite (std_min_l z ub Hz). apply std_max_ge_r.
    + rewrite (std_max_l ua ub Hu) in Hz.
      rewrite (std_min_l z ua Hz). apply std_max_ge_l.
Qed.

(** X1.  [_min] and [_max] of two non-empty intervals are non-empty: the
    lower bound of the result does not exceed its upper bound. *)
Theorem min_max_nonempty (a b : Interval T) :
  nonempty a -> nonempty b ->
  nonempty (_min a b) /\ nonempty (_max a b).
Proof.
  unfold nonempty. intros Ha Hb. split; simpl.
  - now apply std_min_mono.
  - now apply std_max_mono.
Qed.

(** X2.  For non-empty operands the results are exact: every value in
    [_min a b] is the [std::min] of a value in [a] and a value in [b], and
    every value in [_max a b] is the [std::max] of two such values.  The
    results are therefore not wider than the true range either. *)
Theorem min_max_exact (a b : Interval T) :
  nonempty a -> nonempty b ->
  (forall z, contains (_min a b) z ->
             exists x y, contains a x /\ contains b y /\ std_min x y = z) /\
  (forall z, contains (_max a b) z ->
             exists x y, contains a x /\ contains b y /\ std_max x y = z).
Proof.
  unfold nonempty. intros Ha Hb. split; intros z [Hl Hu]; simpl in Hl, Hu.
  - exists (std_max z (lower a)), (std_max z (lower b)).
    assert (Hua : leb z (upper a) = true).
    { apply leb_trans with (std_min (upper a) (upper b));
        [exact Hu | apply std_min_le_l]. }
    assert (Hub : leb z (upper b) = true).
    { apply leb_trans with (std_min (upper a) (upper b));
        [exact Hu | apply std_min_le_r]. }
    repeat split.
    + apply std_max_ge_r.
    + now apply std_max_lub.
    + apply std_max_ge_r.
    + now apply std_max_lub.
    + now apply min_of_clamped.
  - exists (std_min z (upper a)), (std_min z (upper b)).
    assert (Hla : leb (lower a) z = true).
    { apply leb_trans with (std_max (lower a) (lower b));
        [apply std_max_ge_l | exact Hl]. }
    assert (Hlb : leb (lower b) z = true).
    { apply leb_trans with (std_max (lower a) (lower b));
        [apply std_max_ge_r | exact Hl]. }
    repeat split.
    + now apply std_min_glb.
    + apply std_min_le_r.
    + now apply std_min_glb.
    + apply std_min_le_r.
    + now apply max_of_clamped.
Qed.

(** X3.  Absorption: [_min a (_max a b) = a] and [_max a (_min a b) = a];
    with C8 this makes intervals a lattice under [_min] and [_max]. *)
Theorem min_max_absorb (a b : Interval T) :
  _min a (_max a b) = a /\ _max a (_min a b) = a.
Proof.
  destruct a as [la ua], b as [lb ub].
  unfold _min, _max, boost_min, boost_max; simpl. split; f_equal.
  - apply std_min_l, std_max_ge_l.
  - apply std_min_l, std_max_ge_l.
  - apply std_max_l, std_min_le_l.
  - apply std_max_l, std_min_le_l.
Qed.

(** X4.  Both operations are monotone for inclusion: shrinking the
    operands can only shrink the result. *)
Theorem min_max_monotone (a a' b b' : Interval T) :
  subset a a' -> subset b b' ->
  subset (_min a b) (_min a' b') /\ subset (_max a b) (_max a' b').
Proof.
  intros [Hal Hau] [Hbl Hbu]. repeat split; simpl.
  - now apply std_min_mono.
  - now apply std_min_mono.
  - now apply std_max_mono.
  - now apply std_max_mono.
Qed.

End IntervalLattice.

Lemma min_max_nonempty_witness :
  (nonempty (mkInterval 0 5) /\ nonempty (mkInterval 2 3)) /\
  nonempty (_min (mkInterval 0 5) (mkInterval 2 3)).
Proof.
  split; [split; reflexivity |].
  exact (proj1 (min_max_nonempty (mkInterval 0 5) (mkInterval 2 3)
                                 eq_refl eq_refl)).
Defined.

Lemma min_max_exact_witness :
  (nonempty (mkInterval 0 5) /\ nonempty (mkInterval 2 3)) /\
  exists x y, contains (mkInterval 0 5) x /\ contains (mkInterval 2 3) y /\
              std_min x y = 1.
Proof.
  split; [split; reflexivity |].
  exact (proj1 (min_max_exact (mkInterval 0 5) (mkInterval 2 3)
                              eq_refl eq_refl)
               1 (conj eq_refl eq_refl)).
Defined.

Lemma min_max_monotone_witness :
  (subset (mkInterval 1 2) (mkInterval 0 5) /\
   subset (mkInterval 3 4) (mkInterval 3 9)) /\
  subset (_min (mkInterval 1 2) (mkInterval 3 4))
         (_min (mkInterval 0 5) (mkInterval 3 9)).
Proof.
  split; [split; split; reflexivity |].
  exact (proj1 (min_max_monotone (mkInterval 1 2) (mkInterval 0 5)
                                 (mkInterval 3 4) (mkInterval 3 9)
                                 (conj eq_refl eq_refl)
                                 (conj eq_refl eq_refl))).
Defined.


(* ===================================================================== *)
(** * More on the scheduler                                               *)
(* ===================================================================== *)

Section SchedulerMore.
Context {E : Extern}.

(** The three ways a call of [startRender] can return. *)
Lemma startRender_cases (s s' : Frame) :
  startRender s = Some s' ->
  future s = NoState /\ valid (pending s) = false /\
  ((valid (next s) = true /\ s' = dispatch s) \/
   (valid (next s) = false /\ (1 <? level (current s)) = true /\
    s' = dispatch (refine s)) \/
   (valid (next s) = false /\ (1 <? level (current s)) = false /\
    s' = s)).
Proof.
  rewrite startRender_closed. unfold asserts_hold.
  destruct (future s); simpl; try discriminate.
  destruct (valid (pending s)); simpl; try discriminate.
  destruct (valid (next s)).
  - intros [= <-]. split; [reflexivity |]. split; [reflexivity |].
    left. split; reflexivity.
  - destruct (1 <? level (current s)); intros [= <-];
      (split; [reflexivity |]); (split; [reflexivity |]); right.
    + left. repeat split.
    + right. repeat split.
Qed.

(** X5.  [startRender] fails an assert exactly when the future has a
    shared state or a task is pending (the recursive call never fails on
    its own), and [render] fails one exactly when a task is pending
    although the future has no shared state. *)
Theorem assert_failures (s : Frame) (m : mat4) (a b c : Z) :
  (startRender s = None <->
   future_valid (future s) = true \/ valid (pending s) = true) /\
  (render s m a b c = None <->
   future s = NoState /\ valid (pending s) = true).
Proof.
  split.
  - rewrite startRender_closed. unfold asserts_hold.
    destruct (future_valid (future s)), (valid (pending s)); simpl;
      try (split; [auto | reflexivity]).
    destruct (valid (next s)); [| destruct (1 <? level (current s))];
      (split; [discriminate | intros [Hx | Hx]; discriminate]).
  - unfold render. simpl.
    destruct (future s) eqn:Hf; simpl;
      try (split; [discriminate | intros [Hx _]; discriminate]).
    rewrite startRender_closed. unfold asserts_hold. simpl. rewrite Hf. simpl.
    destruct (valid (pending s)); simpl.
    + split; auto.
    + split; [discriminate | intros [_ Hx]; discriminate].
Qed.

(** X6.  [poll] never fails an assert, whatever state it is called in:
    [future.get()] and [pending.reset()] establish both before
    [startRender] is called. *)
Theorem poll_never_fails (s : Frame) :
  exists b s', poll s = Some (b, s').
Proof.
  destruct (future s) as [| r | out] eqn:Hf.
  - exists false, s. unfold poll. now rewrite Hf.
  - exists false, s. unfold poll. now rewrite Hf.
  - exists true. eexists. exact (poll_ready s out Hf).
Qed.

(** X7.  A [poll] that returned [true] is followed by one that returns
    [false] and changes nothing: a result is reported once. *)
Theorem poll_true_once (s s' : Frame) :
  poll s = Some (true, s') -> poll s' = Some (false, s').
Proof.
  intros Hp. destruct (future s) as [| r | out] eqn:Hf;
    try (unfold poll in Hp; rewrite Hf in Hp; discriminate).
  rewrite (poll_ready s out Hf) in Hp. injection Hp as <-.
  destruct (valid (next s)); [reflexivity |].
  destruct (1 <? level (pending s)); reflexivity.
Qed.

(** [startRender] leaves [current] and the textures alone. *)
Lemma startRender_display (s s' : Frame) :
  startRender s = Some s' ->
  current s' = current s /\ depth s' = depth s /\ norm s' = norm s.
Proof.
  intros Hs. destruct (startRender_cases s s' Hs)
    as (_ & _ & [[_ ->] | [(_ & _ & ->) | (_ & _ & ->)]]); auto.
Qed.

(** X8.  [current] and the two textures change only in a [poll] that
    returns [true]: [render], the worker and a [poll] that returns [false]
    leave them as they are. *)
Theorem display_stable (s s' : Frame) :
  step s s' ->
  poll s = Some (true, s') \/
  (current s' = current s /\ depth s' = depth s /\ norm s' = norm s).
Proof.
  intros Hs. destruct Hs as [s m a b c s' Hr | s b s' Hp | s r Hf].
  - right. unfold render in Hr. simpl in Hr.
    destruct (future_valid (future s)); simpl in Hr.
    + injection Hr as <-. auto.
    + apply startRender_display in Hr. exact Hr.
  - destruct b; [now left | right].
    destruct (future s) as [| r | out] eqn:Hf.
    + unfold poll in Hp. rewrite Hf in Hp. injection Hp as <-. auto.
    + unfold poll in Hp. rewrite Hf in Hp. injection Hp as <-. auto.
    + rewrite (poll_ready s out Hf) in Hp. discriminate.
  - right. unfold worker_return. rewrite Hf. auto.
Qed.

Lemma level_ok_halved (t : Task) :
  level_ok t -> (1 <? level t) = true ->
  level_ok (with_level t (level t / 2)).
Proof.
  intros [Hv | Hin] Hl.
  - unfold valid in Hv. apply Z.ltb_ge in Hv. apply Z.ltb_lt in Hl. lia.
  - right. simpl in *.
    destruct Hin as [Hx | [Hx | [Hx | [Hx | []]]]];
      rewrite <- Hx in Hl |- *; try discriminate; simpl; auto.
Qed.

Lemma step_levels (s s' : Frame) : levels_ok s -> step s s' -> levels_ok s'.
Proof.
  intros (Hc & Hp & Hn) Hs.
  destruct Hs as [s m a b c s' Hr | s b s' Hq | s r Hf].
  - unfold render in Hr. simpl in Hr.
    destruct (future_valid (future s)); simpl in Hr.
    + injection Hr as <-. repeat split; auto.
    + destruct (startRender_cases _ _ Hr)
        as (_ & _ & [[_ ->] | [(Hx & _) | (Hx & _)]]);
        try discriminate.
      repeat split; simpl; auto.
      * right. simpl. auto.
      * discriminate.
  - destruct (future s) as [| r | out] eqn:Hf;
      try (unfold poll in Hq; rewrite Hf in Hq; injection Hq as _ <-;
           repeat split; assumption).
    rewrite (poll_ready s out Hf) in Hq. injection Hq as _ <-.
    destruct (valid (next s)) eqn:Hv.
    + repeat split; simpl; auto.
      * right. rewrite (Hn eq_refl). simpl. auto.
      * discriminate.
    + destruct (1 <? level (pending s)) eqn:Hl.
      * repeat split; simpl; auto.
        -- now apply level_ok_halved.
        -- discriminate.
      * repeat split; simpl; auto.
        -- now left.
        -- rewrite Hv. discriminate.
  - unfold worker_return. rewrite Hf. repeat split; assumption.
Qed.

Lemma reachable_levels (s : Frame) : reachable s -> levels_ok s.
Proof.
  induction 1 as [s (Hc & Hp & Hn & _) | s s' _ IH Hs].
  - repeat split; [now left | now left | congruence].
  - now apply step_levels with s.
Qed.

(** X9.  In every reachable state a task in [current] or [pending] has
    level 1, 2, 4 or 8 and a queued task has level 8; so the divisor
    [2 * level] of a dispatched region is never zero, and [next] only ever
    holds a request of [render], never a refinement. *)
Theorem levels_are_powers (s : Frame) :
  reachable s ->
  (valid (current s) = true -> In (level (current s)) [1; 2; 4; 8]) /\
  (valid (pending s) = true -> In (level (pending s)) [1; 2; 4; 8]) /\
  (valid (next s) = true -> level (next s) = 8).
Proof.
  intros Hr. destruct (reachable_levels s Hr) as (Hc & Hp & Hn).
  repeat split; try assumption.
  - intros Hv. destruct Hc as [Hc | Hc]; [congruence | exact Hc].
  - intros Hv. destruct Hp as [Hp | Hp]; [congruence | exact Hp].
Qed.

Lemma step_coherent (s s' : Frame) :
  invariant s -> worker_coherent s /\ display_coherent s -> step s s' ->
  worker_coherent s' /\ display_coherent s'.
Proof.
  intros [Hv _] [Hw Hd] Hs.
  destruct Hs as [s m a b c s' Hr | s b s' Hq | s r Hf].
  - unfold render in Hr. simpl in Hr.
    destruct (future_valid (future s)); simpl in Hr.
    + injection Hr as <-. split; assumption.
    + destruct (startRender_cases _ _ Hr)
        as (_ & _ & [[_ ->] | [(Hx & _) | (Hx & _)]]);
        try discriminate.
      split; [unfold worker_coherent; simpl; auto | exact Hd].
  - destruct (future s) as [| r | out] eqn:Hf;
      try (unfold poll in Hq; rewrite Hf in Hq; injection Hq as _ <-;
           split; assumption).
    rewrite (poll_ready s out Hf) in Hq. injection Hq as _ <-.
    unfold worker_coherent in Hw. rewrite Hf in Hw. simpl in Hv.
    assert (Hp : display_coherent (promoted s out)).
    { unfold display_coherent. simpl. rewrite <- Hv, Hw. auto. }
    destruct (valid (next s)).
    + split; [unfold worker_coherent; simpl; auto | exact Hp].
    + destruct (1 <? level (pending s)).
      * split; [unfold worker_coherent; simpl; auto | exact Hp].
      * split; [exact I | exact Hp].
  - unfold worker_coherent in Hw. rewrite Hf in Hw. destruct Hw as [Hr Ht].
    unfold worker_return. rewrite Hf. split; [| exact Hd].
    unfold worker_coherent. simpl. unfold rendering. now rewrite Hr, Ht.
Qed.

Lemma reachable_coherent (s : Frame) :
  reachable s -> worker_coherent s /\ display_coherent s.
Proof.
  induction 1 as [s Hi | s s' Hr IH Hs].
  - destruct Hi as (Hc & _ & _ & Hf & Hd & Hn). split.
    + unfold worker_coherent. now rewrite Hf.
    + unfold display_coherent. now rewrite Hc.
  - apply step_coherent with s; auto using reachable_invariant.
Qed.

(** X10.  In every reachable state the worker belongs to the pending task:
    while it runs, its region is the region of [pending] and the tree
    holds the inverse of the matrix of [pending]; once it has returned,
    its result is [Render] then [Shade] of that region under that
    matrix. *)
Theorem worker_renders_pending (s : Frame) :
  reachable s ->
  match future s with
  | NoState => valid (pending s) = false
  | Running r => r = region_of (pending s) /\
                 tree s = inverse (mat (pending s))
  | Ready out =>
      let m := inverse (mat (pending s)) in
      let r := region_of (pending s) in
      out = (Render m r, Shade m r (Render m r))
  end.
Proof.
  intros Hr. destruct (reachable_coherent s Hr) as [Hw _].
  destruct (reachable_invariant s Hr) as [Hv _].
  unfold worker_coherent in Hw.
  destruct (future s); [now rewrite <- Hv | exact Hw | exact Hw].
Qed.

(** X11.  In every reachable state with a valid [current], the depth
    texture and the normal texture hold the uploaded [Render] and [Shade]
    of the region of [current], computed with the tree holding the inverse
    of the matrix of [current] (the matrix [draw] compensates for). *)
Theorem display_shows_current (s : Frame) :
  reachable s -> valid (current s) = true ->
  let m := inverse (mat (current s)) in
  let r := region_of (current s) in
  depth s = Some (cast_transpose (Render m r)) /\
  norm s = Some (transpose (Shade m r (Render m r))).
Proof.
  intros Hr Hv. destruct (reachable_coherent s Hr) as [_ Hd].
  unfold display_coherent in Hd. rewrite Hv in Hd. exact Hd.
Qed.

(** X12.  In every reachable state [draw] returns early exactly when
    nothing was uploaded yet: it never draws from a texture without
    contents, and never skips a result that was uploaded. *)
Theorem draw_iff_uploaded (s : Frame) (m : mat4) :
  reachable s ->
  (draw s m = None <-> depth s = None /\ norm s = None) /\
  (draw s m <> None <-> depth s <> None /\ norm s <> None).
Proof.
  intros Hr. destruct (reachable_coherent s Hr) as [_ Hd].
  unfold display_coherent in Hd. unfold draw.
  destruct (valid (current s)).
  - destruct Hd as [-> ->]. split; split.
    + discriminate.
    + intros [Hx _]. discriminate.
    + intros _. split; discriminate.
    + intros _. discriminate.
  - destruct Hd as [-> ->]. split; split.
    + auto.
    + reflexivity.
    + intros Hx. now elim Hx.
    + intros [Hx _]. now elim Hx.
Qed.

(** One round from any state whose future has a shared state. *)
Lemma poll_after_return (s : Frame) :
  future_valid (future s) = true ->
  exists out,
    outcome s = Some out /\
    poll (worker_return s) =
    Some (true,
          if valid (next s) then dispatch (promoted s out)
          else if 1 <? level (pending s)
               then dispatch (refine (promoted s out))
               else promoted s out).
Proof.
  intros Hv. unfold outcome, worker_return.
  destruct (future s) as [| r | out] eqn:Hf; [discriminate | |].
  - eexists. split; [reflexivity |].
    rewrite poll_ready with (out := _) by reflexivity. reflexivity.
  - rewrite Hf. exists out. split; [reflexivity |].
    now rewrite (poll_ready s out Hf).
Qed.

(** X13.  A request made in a reachable state becomes [current] after one
    successful poll when no task was pending, and after two when one was:
    the in-flight task is promoted first, the request next. *)
Theorem request_takes_effect (s : Frame) (m : mat4) (a b c : Z) :
  reachable s ->
  exists s1 l s2,
    render s m a b c = Some s1 /\
    successful_polls (if valid (pending s) then 2 else 1) s1 = Some (l, s2) /\
    current s2 = mkTask m a b c 8.
Proof.
  intros Hr. destruct (reachable_invariant s Hr) as [Hv _].
  destruct (valid (pending s)) eqn:Hp.
  - exists (set_next s (mkTask m a b c 8)).
    destruct (poll_after_return (set_next s (mkTask m a b c 8)))
      as (out & _ & Hq); [exact Hv |].
    simpl in Hq.
    set (s2 := dispatch (promoted (set_next s (mkTask m a b c 8)) out)) in *.
    destruct (refine_round s2 (region_of (mkTask m a b c 8)))
      as (s3 & Hq3 & Hc3 & _); try reflexivity.
    eexists _, s3. split; [now apply render_busy |]. split.
    + simpl. rewrite Hq, Hq3. reflexivity.
    + exact Hc3.
  - assert (Hf : future s = NoState) by (now destruct (future s)).
    set (s1 := dispatch (set_next s (mkTask m a b c 8))).
    destruct (refine_round s1 (region_of (mkTask m a b c 8)))
      as (s2 & Hq2 & Hc2 & _); try reflexivity.
    exists s1. eexists _, s2. split; [now apply render_free |]. split.
    + simpl. rewrite Hq2. reflexivity.
    + exact Hc2.
Qed.

(** X14.  From every reachable state, with no further [render], at most
    five successful polls bring the scheduler to rest, with nothing left to
    refine.  If a task was in flight, [current] is then the most recent
    task (the queued one if there is one, else the pending one) at
    level 1. *)
Theorem scheduler_comes_to_rest (s : Frame) :
  reachable s ->
  exists n l s',
    (n <= 5)%nat /\ successful_polls n s = Some (l, s') /\
    idle s' /\ (1 <? level (current s')) = false /\
    (future_valid (future s) = true ->
     current s' =
     with_level (if valid (next s) then next s else pending s) 1).
Proof.
  intros Hr. destruct (reachable_invariant s Hr) as [Hv Hi].
  destruct (reachable_levels s Hr) as (_ & Hlp & Hln).
  destruct (future_valid (future s)) eqn:Hfv.
  - destruct (poll_after_return s Hfv) as (out & _ & Hq).
    destruct Hlp as [Hlp | Hlp]; [congruence |].
    destruct (valid (next s)) eqn:Hn.
    + set (s1 := dispatch (promoted s out)) in *.
      destruct (refine_chain 4 s1 (region_of (next s)))
        as (n & l & s' & Hle & Hrun & Hidle & Hcur); try reflexivity.
      { simpl. rewrite (Hln eq_refl). simpl. lia. }
      exists (S n). eexists _, s'. split; [lia |]. split; [| split; [| split]].
      * simpl. rewrite Hq, Hrun. reflexivity.
      * exact Hidle.
      * now rewrite Hcur.
      * intros _. exact Hcur.
    + destruct (1 <? level (pending s)) eqn:Hl.
      * set (s1 := dispatch (refine (promoted s out))) in *.
        destruct (refine_chain 3 s1
                    (region_of (with_level (pending s)
                                           (level (pending s) / 2))))
          as (n & l & s' & Hle & Hrun & Hidle & Hcur); try reflexivity.
        { change (2 ^ Z.of_nat 3) with 8. apply Z.ltb_lt in Hl.
          change (level (pending s1)) with (level (pending s) / 2).
          assert (Hb : level (pending s) <= 8).
          { simpl in Hlp. lia. }
          split.
          - apply Z.div_le_lower_bound; lia.
          - apply Z.div_lt_upper_bound; lia. }
        exists (S n). eexists _, s'.
        split; [lia |]. split; [| split; [| split]].
        -- simpl. rewrite Hq, Hrun. reflexivity.
        -- exact Hidle.
        -- now rewrite Hcur.
        -- intros _. exact Hcur.
      * exists 1%nat. eexists _, (promoted s out).
        split; [lia |]. split; [| split; [| split]].
        -- simpl. rewrite Hq. reflexivity.
        -- unfold idle. simpl. auto.
        -- exact Hl.
        -- intros _. simpl. apply Z.ltb_ge in Hl. simpl in Hlp.
           destruct (pending s) as [pm pa pb pc pl]. unfold with_level.
           simpl in *. f_equal. lia.
  - assert (Hf : future s = NoState) by (now destruct (future s)).
    destruct (Hi Hf) as [Hn Hl].
    exists 0%nat, [], s. split; [lia |]. split; [reflexivity |].
    split; [| split; [exact Hl | discriminate]].
    unfold idle. now rewrite <- Hv.
Qed.

(** X15.  A refinement never samples fewer voxels than the pass before:
    for a task at level 2, 4 or 8 with counts below 2^53, each voxel
    count of the region at half the level is at least the count at the
    level itself ([operator<=] on the [double] counts). *)
Theorem refinement_never_coarsens (t : Task) :
  In (level t) [2; 4; 8] ->
  0 <= ni t < 2 ^ 53 -> 0 <= nj t < 2 ^ 53 -> 0 <= nk t < 2 ^ 53 ->
  let t' := with_level t (level t / 2) in
  double_leb (vi (region_of t)) (vi (region_of t')) = true /\
  double_leb (vj (region_of t)) (vj (region_of t')) = true /\
  double_leb (vk (region_of t)) (vk (region_of t')) = true.
Proof.
  intros Hl Hi Hj Hk t'.
  assert (Hle : forall n, 0 <= n ->
                double_leb (quotient n (2 * level t))
                           (quotient n (2 * (level t / 2))) = true).
  { intros n Hn. unfold double_leb, quotient.
    apply Qle_bool_iff. rewrite !Qred_correct.
    simpl in Hl. destruct Hl as [<- | [<- | [<- | []]]];
      unfold Qle; simpl; lia. }
  rewrite (region_of_exact t), (region_of_exact t');
    try assumption; simpl.
  - repeat split; apply Hle; lia.
  - simpl in Hl. destruct Hl as [<- | [<- | [<- | []]]]; simpl; auto.
  - simpl in Hl. destruct Hl as [<- | [<- | [<- | []]]]; simpl; auto.
Qed.

End SchedulerMore.

Lemma toy_returned_step : step toy_running toy_returned.
Proof.
  apply (step_worker toy_running
                     (region_of (mkTask (E := toy) 5 64 64 64 8))).
  reflexivity.
Defined.

Lemma toy_refining_poll : poll toy_returned = Some (true, toy_refining).
Proof. vm_compute. reflexivity. Defined.

Lemma toy_refining_reachable : reachable toy_refining.
Proof.
  apply reach_step with toy_returned.
  - apply reach_step with toy_running.
    + exact toy_running_reachable.
    + exact toy_returned_step.
  - apply (step_poll toy_returned true). exact toy_refining_poll.
Defined.

Lemma poll_true_once_witness :
  poll toy_returned = Some (true, toy_refining) /\
  poll toy_refining = Some (false, toy_refining).
Proof.
  split; [exact toy_refining_poll |].
  exact (poll_true_once toy_returned toy_refining toy_refining_poll).
Defined.

Lemma display_stable_witness :
  step toy_running toy_returned /\
  (poll toy_running = Some (true, toy_returned) \/
   (current toy_returned = current toy_running /\
    depth toy_returned = depth toy_running /\
    norm toy_returned = norm toy_running)).
Proof.
  split; [exact toy_returned_step |].
  exact (display_stable toy_running toy_returned toy_returned_step).
Defined.

Lemma levels_are_powers_witness :
  reachable toy_refining /\
  (valid (pending toy_refining) = true ->
   In (level (pending toy_refining)) [1; 2; 4; 8]).
Proof.
  split; [exact toy_refining_reachable |].
  exact (proj1 (proj2 (levels_are_powers toy_refining
                                         toy_refining_reachable))).
Defined.

Lemma worker_renders_pending_witness :
  reachable toy_refining /\
  tree toy_refining = inverse (mat (pending toy_refining)).
Proof.
  split; [exact toy_refining_reachable |].
  exact (proj2 (worker_renders_pending toy_refining toy_refining_reachable)).
Defined.

Lemma display_shows_current_witness :
  (reachable toy_refining /\ valid (current toy_refining) = true) /\
  depth toy_refining =
  Some (cast_transpose
          (Render (inverse (mat (current toy_refining)))
                  (region_of (current toy_refining)))).
Proof.
  split; [split; [exact toy_refining_reachable | reflexivity] |].
  exact (proj1 (display_shows_current toy_refining toy_refining_reachable
                                      eq_refl)).
Defined.

Lemma draw_iff_uploaded_witness :
  reachable toy_running /\
  (draw toy_running (3 : @mat4 toy) = None <->
   depth toy_running = None /\ norm toy_running = None).
Proof.
  split; [exact toy_running_reachable |].
  exact (proj1 (draw_iff_uploaded toy_running (3 : @mat4 toy)
                                  toy_running_reachable)).
Defined.

Lemma request_takes_effect_witness :
  reachable toy_refining /\
  exists s1 l s2,
    render toy_refining (7 : @mat4 toy) 32 32 32 = Some s1 /\
    successful_polls 2 s1 = Some (l, s2) /\
    current s2 = mkTask (E := toy) 7 32 32 32 8.
Proof.
  split; [exact toy_refining_reachable |].
  exact (request_takes_effect toy_refining (7 : @mat4 toy) 32 32 32
                              toy_refining_reachable).
Defined.

Lemma scheduler_comes_to_rest_witness :
  reachable toy_refining /\
  exists n l s',
    (n <= 5)%nat /\ successful_polls n toy_refining = Some (l, s') /\
    idle s' /\ (1 <? level (current s')) = false /\
    (future_valid (future toy_refining) = true ->
     current s' = mkTask (E := toy) 5 64 64 64 1).
Proof.
  split; [exact toy_refining_reachable |].
  exact (scheduler_comes_to_rest toy_refining toy_refining_reachable).
Defined.

Lemma refinement_never_coarsens_witness :
  (In 8 [2; 4; 8] /\ 0 <= 100 < 2 ^ 53 /\ 0 <= 50 < 2 ^ 53 /\
   0 <= 7 < 2 ^ 53) /\
  double_leb (vi (region_of (mkTask (E := toy) 5 100 50 7 8)))
             (vi (region_of (mkTask (E := toy) 5 100 50 7 4))) = true.
Proof.
  split; [split; [simpl; auto | lia] |].
  refine (proj1 (refinement_never_coarsens (mkTask (E := toy) 5 100 50 7 8)
                                           _ _ _ _));
    simpl; auto; lia.
Defined.
